(** * Tic Tac Toe game state engine of [GameBoard.vue]

    A shallow embedding of the script block of
    [src/components/tictactoe/GameBoard.vue]: the two pure functions
    [calculateWinner] and [isBoardFull], the reactive [state] record, the
    computed values [currentPlayer] and [result], and the three handlers
    [handleCellClick], [newRound] and [resetAll].

    Modelling choices.
    - A [Cell[]] array is a [list Cell]; reading [squares[i]] is stdpp's
      list lookup, where [None] stands for JavaScript's [undefined].
    - The argument of [handleCellClick] is a JavaScript number; it is
      modelled as an integer of [Z], so that negative indices exist.
    - The score counters are JavaScript numbers that only ever receive
      [+= 1] and [= 0]; they are modelled as natural numbers. *)

From Stdlib Require Import ZArith Lia.
From Stdlib Require String.
From stdpp Require Import base decidable option list.

(** ** Data model *)

(** [type Player = 'X' | 'O'].  The constructors are [PX] and [PO]
    because [O] is already the zero of [nat]. *)
Inductive Player : Set := PX | PO.

(** [type Cell = Player | ''].  [blank] is the empty string. *)
Inductive Cell : Set := mark (p : Player) | blank.

#[global] Instance Player_eq_dec : EqDecision Player.
Proof. solve_decision. Defined.

#[global] Instance Cell_eq_dec : EqDecision Cell.
Proof. solve_decision. Defined.

(** The value obtained by indexing an array: [None] is [undefined]. *)
Definition JsCell : Set := option Cell.

(** JavaScript's [===] on values read from a board. *)
Definition strictEq (u v : JsCell) : bool := bool_decide (u = v).

(** The result object of [calculateWinner]: [winner] is [None] for
    [null], and [line] is the list of indices. *)
Record WinnerResult : Set := mkResult {
  winner : option Player;
  line : list nat
}.

(** The constant table [lines] of [calculateWinner]. *)
Definition lines : list (nat * nat * nat) :=
  [ (0, 1, 2);
    (3, 4, 5);
    (6, 7, 8);
    (0, 3, 6);
    (1, 4, 7);
    (2, 5, 8);
    (0, 4, 8);
    (2, 4, 6) ].

(** The body of the [for (const [a, b, c] of lines)] loop, over the
    triples that are still to be visited.  The test
    [squares[a] && squares[a] === squares[b] && squares[a] === squares[c]]
    is truthy exactly when [squares[a]] is a non-empty string that is
    strictly equal to the two other reads; [undefined] and [''] are
    falsy. *)
Fixpoint scanLines (squares : list Cell) (rest : list (nat * nat * nat))
  : WinnerResult :=
  match rest with
  | [] => mkResult None []
  | (a, b, c) :: rest' =>
      match squares !! a with
      | Some (mark p) =>
          if strictEq (squares !! a) (squares !! b)
             && strictEq (squares !! a) (squares !! c)
          then mkResult (Some p) [a; b; c]
          else scanLines squares rest'
      | _ => scanLines squares rest'
      end
  end.

Definition calculateWinner (squares : list Cell) : WinnerResult :=
  scanLines squares lines.

(** [squares.every((c) => c !== '')]. *)
Definition isBoardFull (squares : list Cell) : bool :=
  forallb (fun c => negb (bool_decide (c = blank))) squares.

(** [state.scores]. *)
Record Scores : Set := mkScores {
  scoreX : nat;
  scoreO : nat;
  draws : nat
}.

(** The reactive [state] object. *)
Record GameState : Set := mkState {
  board : list Cell;
  xIsNext : bool;
  scores : Scores;
  gameOver : bool;
  winningLine : list nat
}.

(** [Array<Cell>(9).fill('')]. *)
Definition emptyBoard : list Cell := replicate 9 blank.

(** The initial value of [state]. *)
Definition initialState : GameState :=
  mkState emptyBoard true (mkScores 0 0 0) false [].

(** [computed(() => (state.xIsNext ? 'X' : 'O'))]. *)
Definition currentPlayer (s : GameState) : Player :=
  if xIsNext s then PX else PO.

(** The object returned by the computed [result]. *)
Inductive Status : Set :=
| win (w : Player) (l : list nat)
| draw
| ongoing.

Definition boardStatus (squares : list Cell) : Status :=
  let res := calculateWinner squares in
  match winner res with
  | Some w => win w (line res)
  | None => if isBoardFull squares then draw else ongoing
  end.

Definition result (s : GameState) : Status := boardStatus (board s).

(** [state.board[index]] for a JavaScript number that holds an integer:
    a negative index is not an array index, so the read is [undefined]. *)
Definition readCell (squares : list Cell) (index : Z) : JsCell :=
  if (index <? 0)%Z then None else squares !! Z.to_nat index.

(** [state.scores[w] += 1]. *)
Definition bumpScore (w : Player) (sc : Scores) : Scores :=
  match w with
  | PX => mkScores (scoreX sc + 1) (scoreO sc) (draws sc)
  | PO => mkScores (scoreX sc) (scoreO sc + 1) (draws sc)
  end.

(** [state.scores.draws += 1]. *)
Definition bumpDraws (sc : Scores) : Scores :=
  mkScores (scoreX sc) (scoreO sc) (draws sc + 1).

(** [handleCellClick].  The assignment [state.board[index] = ...] is only
    reached when the guard has read [''] at [index], hence at an index
    inside the array, where it is the list update; the out-of-range
    behaviour of an array assignment (growing the array) never occurs. *)
Definition handleCellClick (index : Z) (s : GameState) : GameState :=
  if negb (strictEq (readCell (board s) index) (Some blank)) || gameOver s
  then s
  else
    let board' := <[Z.to_nat index := mark (currentPlayer s)]> (board s) in
    let evalResult := calculateWinner board' in
    match winner evalResult with
    | Some w =>
        mkState board' (xIsNext s) (bumpScore w (scores s)) true
                (line evalResult)
    | None =>
        if isBoardFull board'
        then mkState board' (xIsNext s) (bumpDraws (scores s)) true
                     (winningLine s)
        else mkState board' (negb (xIsNext s)) (scores s) (gameOver s)
                     (winningLine s)
    end.

(** [newRound]. *)
Definition newRound (s : GameState) : GameState :=
  mkState emptyBoard
          (if negb (gameOver s) then xIsNext s else true)
          (scores s)
          false
          [].

(** [resetAll]. *)
Definition resetAll (s : GameState) : GameState :=
  mkState emptyBoard true (mkScores 0 0 0) false [].

(** ** Commands and reachable states *)

(** The three commands of the engine, named as in the specification:
    [applyMove] is [handleCellClick], [startNewRound] is [newRound]. *)
Inductive Command : Set :=
| applyMove (index : Z)
| startNewRound
| resetAllCmd.

Definition exec (c : Command) (s : GameState) : GameState :=
  match c with
  | applyMove index => handleCellClick index s
  | startNewRound => newRound s
  | resetAllCmd => resetAll s
  end.

(** Running a sequence of commands, first command first. *)
Definition run (cs : list Command) (s : GameState) : GameState :=
  foldl (fun st c => exec c st) s cs.

(** The states reachable from [initialState] by any sequence of commands. *)
Inductive reachable : GameState -> Prop :=
| reach_init : reachable initialState
| reach_step c s : reachable s -> reachable (exec c s).

(** The states of one round played from the initial state: only clicks on
    an empty cell of a board that is not over. *)
Inductive legalPlay : GameState -> Prop :=
| legal_init : legalPlay initialState
| legal_move index s :
    legalPlay s ->
    gameOver s = false ->
    readCell (board s) index = Some blank ->
    legalPlay (handleCellClick index s).

(** The number of cells of a board that pass the test [f]. *)
Fixpoint countCells (f : Cell -> bool) (squares : list Cell) : nat :=
  match squares with
  | [] => 0
  | c :: rest => (if f c then 1 else 0) + countCells f rest
  end.

(** The move count: the number of non-empty cells of a board. *)
Definition countMarks (squares : list Cell) : nat :=
  countCells (fun c => negb (bool_decide (c = blank))) squares.

(** The number of cells that hold the mark of [p]. *)
Definition countOf (p : Player) (squares : list Cell) : nat :=
  countCells (fun c => bool_decide (c = mark p)) squares.

(** [state.scores[w]]. *)
Definition scoreOf (w : Player) (sc : Scores) : nat :=
  match w with
  | PX => scoreX sc
  | PO => scoreO sc
  end.

(** The opponent of a player. *)
Definition opponent (w : Player) : Player :=
  match w with
  | PX => PO
  | PO => PX
  end.

(** ** Predicates of the specification *)

(** The three cells of the triple hold the mark of player [p]. *)
Definition lineHolds (squares : list Cell) (p : Player)
  (t : nat * nat * nat) : Prop :=
  let '(a, b, c) := t in
  squares !! a = Some (mark p) /\ squares !! b = Some (mark p)
  /\ squares !! c = Some (mark p).

(** The three cells of the triple are equal and non-empty. *)
Definition lineSatisfied (squares : list Cell) (t : nat * nat * nat) : Prop :=
  exists p, lineHolds squares p t.

(** Some winning line of the table is satisfied on the board. *)
Definition hasWinner (squares : list Cell) : Prop :=
  exists t, In t lines /\ lineSatisfied squares t.

(** No cell of the board is empty. *)
Definition fullBoard (squares : list Cell) : Prop :=
  Forall (fun c => c <> blank) squares.

(** The invariant of the reachable states: the board has 9 cells,
    [gameOver] is set exactly when the status computed from the board is
    not [ongoing], and [winningLine] is the line that [calculateWinner]
    computes from the board. *)
Definition consistent (s : GameState) : Prop :=
  length (board s) = 9
  /\ gameOver s = match result s with ongoing => false | _ => true end
  /\ winningLine s = line (calculateWinner (board s)).

(** While a round played from the initial state is not over, X has as many
    marks as O when X is to move and one more when O is to move; at all
    times X has as many marks as O, or one more. *)
Definition alternating (s : GameState) : Prop :=
  (gameOver s = false ->
   countOf PX (board s)
   = countOf PO (board s) + (if xIsNext s then 0 else 1))
  /\ countOf PO (board s) <= countOf PX (board s)
  /\ countOf PX (board s) <= countOf PO (board s) + 1.

(** The states reachable when [startNewRound] is only used once the round
    is over or while X is to move. *)
Inductive reachableXFirst : GameState -> Prop :=
| xfirst_init : reachableXFirst initialState
| xfirst_move index s :
    reachableXFirst s -> reachableXFirst (handleCellClick index s)
| xfirst_reset s :
    reachableXFirst s -> reachableXFirst (resetAll s)
| xfirst_round s :
    reachableXFirst s ->
    gameOver s = true \/ xIsNext s = true ->
    reachableXFirst (newRound s).

(** ** The presentation layer

    The computed values and template expressions of [GameBoard.vue] that
    read the state: the status chip, the score boxes, the cell classes
    and the buttons.  In the template, [cell] ranges over the elements of
    [state.board], so it is a [Cell], never [undefined]. *)
Module View.
Import String.

(** The text of a [Player] inside a template literal. *)
Definition playerName (p : Player) : string :=
  match p with
  | PX => "X"
  | PO => "O"
  end.

(** The computed [statusText]. *)
Definition statusText (s : GameState) : string :=
  match result s with
  | win w _ => ("Player " ++ playerName w ++ " wins!")%string
  | draw => "It's a draw."%string
  | ongoing =>
      ("Player " ++ playerName (currentPlayer s) ++ "'s turn")%string
  end.

(** The computed [statusAccent]. *)
Definition statusAccent (s : GameState) : string :=
  match result s with
  | win _ _ => "win"%string
  | draw => "draw"%string
  | ongoing => if decide (currentPlayer s = PX) then "x"%string
               else "o"%string
  end.

(** [isWinningCell]: [state.winningLine.includes(idx)]. *)
Definition isWinningCell (s : GameState) (idx : Z) : bool :=
  existsb (fun i => (Z.of_nat i =? idx)%Z) (winningLine s).

(** The class [disabled] of a cell button: [!!cell || state.gameOver]. *)
Definition cellDisabled (s : GameState) (cell : Cell) : bool :=
  negb (bool_decide (cell = blank)) || gameOver s.

(** The attribute [data-hover] of a cell button:
    [(!cell && !state.gameOver) ? currentPlayer : undefined]. *)
Definition cellHover (s : GameState) (cell : Cell) : option Player :=
  if bool_decide (cell = blank) && negb (gameOver s)
  then Some (currentPlayer s)
  else None.

(** The attribute [disabled] of the New Round button:
    [state.board.every(c => c === '')]. *)
Definition newRoundDisabled (s : GameState) : bool :=
  forallb (fun c => bool_decide (c = blank)) (board s).

(** The class [active] of the score box of player [p]:
    [!state.gameOver && currentPlayer === p]. *)
Definition scoreActive (p : Player) (s : GameState) : bool :=
  negb (gameOver s) && bool_decide (currentPlayer s = p).

(** The piece drawn in the status chip, named by its player: the knight
    under [result.status !== 'draw' && currentPlayer === 'X'], the queen
    under [result.status !== 'draw' && currentPlayer === 'O']. *)
Definition statusIcon (s : GameState) : option Player :=
  match result s with
  | draw => None
  | _ => Some (currentPlayer s)
  end.

End View.

(** ** Score accounting *)

(** The sum of the three counters of the scoreboard. *)
Definition totalScore (sc : Scores) : nat :=
  scoreX sc + scoreO sc + draws sc.

(** The number of commands of a run that end a round, that is, that find
    [gameOver] unset and leave it set. *)
Fixpoint finishedRounds (cs : list Command) (s : GameState) : nat :=
  match cs with
  | [] => 0
  | c :: rest =>
      (if negb (gameOver s) && gameOver (exec c s) then 1 else 0)
      + finishedRounds rest (exec c s)
  end.

(** The board with the marks of the two players exchanged. *)
Definition swapMarks (c : Cell) : Cell :=
  match c with
  | mark p => mark (opponent p)
  | blank => blank
  end.

(** ** Worked rounds *)

(** Scenario 1 of the specification. *)
Example scenario1 :
  let s := run [applyMove 0; applyMove 4; applyMove 1; applyMove 5;
                applyMove 2] initialState in
  result s = win PX [0; 1; 2] /\ scores s = mkScores 1 0 0
  /\ gameOver s = true /\ winningLine s = [0; 1; 2].
Proof. vm_compute. auto. Qed.

(** A round that ends in a draw. *)
Example drawnRound :
  let s := run [applyMove 0; applyMove 1; applyMove 2; applyMove 4;
                applyMove 3; applyMove 5; applyMove 7; applyMove 6;
                applyMove 8] initialState in
  board s = [mark PX; mark PO; mark PX; mark PX; mark PO; mark PO;
             mark PO; mark PX; mark PX]
  /\ result s = draw /\ scores s = mkScores 0 0 1 /\ gameOver s = true.
Proof. vm_compute. auto. Qed.

(** ** The evaluator [calculateWinner] *)

Lemma strictEq_true (u v : JsCell) : strictEq u v = true <-> u = v.
Proof. unfold strictEq. apply bool_decide_eq_true. Qed.

Lemma strictEq_false (u v : JsCell) : strictEq u v = false <-> u <> v.
Proof. unfold strictEq. apply bool_decide_eq_false. Qed.

(** One step of the loop: the test of the [if] is the predicate
    [lineHolds]. *)
Lemma scanLines_cons squares a b c rest :
  (exists p, lineHolds squares p (a, b, c)
             /\ scanLines squares ((a, b, c) :: rest)
                = mkResult (Some p) [a; b; c])
  \/ (~ lineSatisfied squares (a, b, c)
      /\ scanLines squares ((a, b, c) :: rest) = scanLines squares rest).
Proof.
  cbn [scanLines].
  destruct (squares !! a) as [[p|]|] eqn:Ha.
  - destruct (strictEq (Some (mark p)) (squares !! b)) eqn:Hb; cbn [andb].
    + destruct (strictEq (Some (mark p)) (squares !! c)) eqn:Hc.
      * apply strictEq_true in Hb, Hc. left. exists p. unfold lineHolds. auto.
      * apply strictEq_false in Hc. right. split; [|reflexivity].
        intros [q (Ha' & _ & Hc')]. congruence.
    + apply strictEq_false in Hb. right. split; [|reflexivity].
      intros [q (Ha' & Hb' & _)]. congruence.
  - right. split; [|reflexivity]. intros [q (Ha' & _)]. congruence.
  - right. split; [|reflexivity]. intros [q (Ha' & _)]. congruence.
Qed.

(** The loop returns the first satisfied triple of the list it scans, with
    the mark found there, and the empty result when there is none. *)
Lemma scanLines_first squares rest :
  (exists pre a b c post p,
      rest = pre ++ (a, b, c) :: post
      /\ Forall (fun t => ~ lineSatisfied squares t) pre
      /\ lineHolds squares p (a, b, c)
      /\ scanLines squares rest = mkResult (Some p) [a; b; c])
  \/ (Forall (fun t => ~ lineSatisfied squares t) rest
      /\ scanLines squares rest = mkResult None []).
Proof.
  induction rest as [|[[a b] c] rest IH].
  - right. split; [constructor | reflexivity].
  - destruct (scanLines_cons squares a b c rest) as [[p [Hp Heq]]|[Hn Heq]].
    + left. exists [], a, b, c, rest, p.
      split; [reflexivity|]. split; [constructor|]. split; assumption.
    + rewrite Heq.
      destruct IH as [(pre & a' & b' & c' & post & p & -> & Hpre & Hp & Hr)
                     |[Hall Hr]].
      * left. exists ((a, b, c) :: pre), a', b', c', post, p.
        split; [reflexivity|]. split; [constructor; assumption|].
        split; assumption.
      * right. split; auto.
Qed.

Lemma calculateWinner_scan squares :
  (exists pre a b c post p,
      lines = pre ++ (a, b, c) :: post
      /\ Forall (fun t => ~ lineSatisfied squares t) pre
      /\ lineHolds squares p (a, b, c)
      /\ calculateWinner squares = mkResult (Some p) [a; b; c])
  \/ (Forall (fun t => ~ lineSatisfied squares t) lines
      /\ calculateWinner squares = mkResult None []).
Proof. apply scanLines_first. Qed.

(** C3.  [calculateWinner] returns a result on every board (on every list
    of cells, in particular on every array of 9 cells): it visits the 8
    triples rows 0-1-2, 3-4-5, 6-7-8, columns 0-3-6, 1-4-7, 2-5-8,
    diagonals 0-4-8, 2-4-6 in this order; either some triple is the
    earliest one whose three cells are equal and non-empty, and the result
    is that cell's mark with that triple, or no triple is satisfied and the
    result is no winner with the empty line. *)
Theorem calculateWinner_first_line (squares : list Cell) :
  lines = [(0, 1, 2); (3, 4, 5); (6, 7, 8);
           (0, 3, 6); (1, 4, 7); (2, 5, 8);
           (0, 4, 8); (2, 4, 6)]
  /\ ((exists pre a b c post p,
          lines = pre ++ (a, b, c) :: post
          /\ Forall (fun t => ~ lineSatisfied squares t) pre
          /\ lineHolds squares p (a, b, c)
          /\ calculateWinner squares = mkResult (Some p) [a; b; c])
      \/ (Forall (fun t => ~ lineSatisfied squares t) lines
          /\ calculateWinner squares = mkResult None [])).
Proof.
  split; [reflexivity|]. apply scanLines_first.
Qed.

(** The two shapes of a result of [calculateWinner]. *)
Lemma calculateWinner_cases squares :
  (exists a b c p,
      In (a, b, c) lines /\ lineHolds squares p (a, b, c)
      /\ calculateWinner squares = mkResult (Some p) [a; b; c])
  \/ (~ hasWinner squares /\ calculateWinner squares = mkResult None []).
Proof.
  destruct (calculateWinner_scan squares)
    as [(pre & a & b & c & post & p & Hl & _ & Hp & Hr)|[Hall Hr]].
  - left. exists a, b, c, p. split; [|auto].
    rewrite Hl. apply in_elt.
  - right. split; [|assumption].
    intros [t [Hin Hsat]]. rewrite Forall_forall in Hall.
    apply (Hall t); [apply list_elem_of_In|]; assumption.
Qed.

Lemma winner_Some_hasWinner squares w :
  winner (calculateWinner squares) = Some w -> hasWinner squares.
Proof.
  destruct (calculateWinner_cases squares)
    as [(a & b & c & p & Hin & Hp & Hr)|[_ Hr]]; rewrite Hr; cbn.
  - intros _. exists (a, b, c). split; [assumption|]. exists p. assumption.
  - discriminate.
Qed.

Lemma winner_None_iff squares :
  winner (calculateWinner squares) = None <-> ~ hasWinner squares.
Proof.
  split.
  - destruct (calculateWinner_cases squares)
      as [(a & b & c & p & Hin & Hp & Hr)|[Hn Hr]]; rewrite Hr; cbn.
    + discriminate.
    + intros _. assumption.
  - intros Hn. destruct (winner (calculateWinner squares)) eqn:Hw; [|reflexivity].
    exfalso. apply Hn. eapply winner_Some_hasWinner. eassumption.
Qed.

Lemma winner_None_line squares :
  winner (calculateWinner squares) = None ->
  line (calculateWinner squares) = [].
Proof.
  destruct (calculateWinner_cases squares)
    as [(a & b & c & p & Hin & Hp & Hr)|[Hn Hr]]; rewrite Hr; cbn.
  - discriminate.
  - reflexivity.
Qed.

Lemma isBoardFull_iff squares :
  isBoardFull squares = true <-> fullBoard squares.
Proof.
  unfold isBoardFull, fullBoard. rewrite forallb_forall, Forall_forall.
  split; intros H c Hc.
  - apply list_elem_of_In in Hc. specialize (H c Hc).
    apply negb_true_iff, bool_decide_eq_false in H. assumption.
  - apply list_elem_of_In in Hc. specialize (H c Hc).
    apply negb_true_iff, bool_decide_eq_false. assumption.
Qed.

(** The status computed from a board, in terms of the board alone. *)
Lemma boardStatus_win squares :
  (exists w l, boardStatus squares = win w l) <-> hasWinner squares.
Proof.
  unfold boardStatus. cbv zeta.
  destruct (winner (calculateWinner squares)) as [w|] eqn:Hw.
  - split; [intros _; eapply winner_Some_hasWinner; eassumption|].
    intros _. eauto.
  - apply winner_None_iff in Hw. split; [|tauto].
    intros (w & l & H). destruct (isBoardFull squares); discriminate.
Qed.

Lemma boardStatus_draw squares :
  boardStatus squares = draw <-> ~ hasWinner squares /\ fullBoard squares.
Proof.
  unfold boardStatus. cbv zeta. rewrite <- isBoardFull_iff.
  destruct (winner (calculateWinner squares)) as [w|] eqn:Hw.
  - apply winner_Some_hasWinner in Hw. split; [discriminate|tauto].
  - apply winner_None_iff in Hw.
    destruct (isBoardFull squares); split; try discriminate; auto.
    intros [_ ?]; discriminate.
Qed.

Lemma boardStatus_ongoing squares :
  boardStatus squares = ongoing <-> ~ hasWinner squares /\ ~ fullBoard squares.
Proof.
  unfold boardStatus. cbv zeta. rewrite <- isBoardFull_iff.
  destruct (winner (calculateWinner squares)) as [w|] eqn:Hw.
  - apply winner_Some_hasWinner in Hw. split; [discriminate|tauto].
  - apply winner_None_iff in Hw.
    destruct (isBoardFull squares); split; try discriminate; auto.
    intros [_ H]. exfalso. apply H. reflexivity.
Qed.

(** ** The move processor [handleCellClick] *)

(** The guard of [handleCellClick] holds: the handler returns at once. *)
Lemma handleCellClick_rejected index s :
  readCell (board s) index <> Some blank \/ gameOver s = true ->
  handleCellClick index s = s.
Proof.
  intros H. unfold handleCellClick.
  destruct H as [H|H].
  - apply strictEq_false in H. rewrite H. reflexivity.
  - rewrite H, orb_true_r. reflexivity.
Qed.

(** The guard fails: the handler runs its body. *)
Lemma handleCellClick_accepted index s :
  gameOver s = false ->
  readCell (board s) index = Some blank ->
  handleCellClick index s =
    let board' := <[Z.to_nat index := mark (currentPlayer s)]> (board s) in
    match winner (calculateWinner board') with
    | Some w =>
        mkState board' (xIsNext s) (bumpScore w (scores s)) true
                (line (calculateWinner board'))
    | None =>
        if isBoardFull board'
        then mkState board' (xIsNext s) (bumpDraws (scores s)) true
                     (winningLine s)
        else mkState board' (negb (xIsNext s)) (scores s) false
                     (winningLine s)
    end.
Proof.
  intros Hg Hc. unfold handleCellClick.
  apply strictEq_true in Hc. rewrite Hc, Hg. reflexivity.
Qed.

(** Every call either is rejected by the guard or runs the body. *)
Lemma handleCellClick_dichotomy index s :
  (readCell (board s) index <> Some blank \/ gameOver s = true)
  \/ (gameOver s = false /\ readCell (board s) index = Some blank).
Proof.
  destruct (gameOver s); [left; right; reflexivity|].
  destruct (decide (readCell (board s) index = Some blank)); auto.
Qed.

(** A read that succeeds is a read at an index of the array. *)
Lemma readCell_Some squares index c :
  readCell squares index = Some c ->
  (0 <= index)%Z /\ Z.to_nat index < length squares
  /\ squares !! Z.to_nat index = Some c.
Proof.
  unfold readCell. destruct (Z.ltb_spec index 0) as [Hlt|Hge];
    [discriminate|].
  intros Hrd. split; [assumption|]. split; [|assumption].
  eapply lookup_lt_Some. eassumption.
Qed.

(** ** Consistency of the cached fields *)

Lemma consistent_initial : consistent initialState.
Proof. repeat split. Qed.

Lemma consistent_newRound s : consistent (newRound s).
Proof. repeat split. Qed.

Lemma consistent_resetAll s : consistent (resetAll s).
Proof. repeat split. Qed.

Lemma consistent_not_over_line s :
  consistent s -> gameOver s = false -> winningLine s = [].
Proof.
  intros (_ & Hg & Hl) Hf. rewrite Hl. apply winner_None_line.
  rewrite Hf in Hg. unfold result, boardStatus in Hg. cbv zeta in Hg.
  destruct (winner (calculateWinner (board s))); [discriminate|reflexivity].
Qed.

Lemma consistent_handleCellClick index s :
  consistent s -> consistent (handleCellClick index s).
Proof.
  intros Hs.
  destruct (handleCellClick_dichotomy index s) as [Hr|[Hg Hc]].
  - rewrite handleCellClick_rejected by assumption. assumption.
  - rewrite handleCellClick_accepted by assumption. cbv zeta.
    pose proof (consistent_not_over_line s Hs Hg) as Hl.
    destruct Hs as (Hlen & _ & _).
    set (board' := <[Z.to_nat index := mark (currentPlayer s)]> (board s)).
    assert (Hlen' : length board' = 9)
      by (unfold board'; rewrite length_insert; assumption).
    destruct (winner (calculateWinner board')) as [w|] eqn:Hw.
    + unfold consistent, result, boardStatus.
      cbn [board gameOver winningLine]. rewrite Hw. auto.
    + destruct (isBoardFull board') eqn:Hf;
        unfold consistent, result, boardStatus;
        cbn [board gameOver winningLine]; rewrite Hw, Hf;
        rewrite (winner_None_line _ Hw); auto.
Qed.

Lemma reachable_consistent s : reachable s -> consistent s.
Proof.
  induction 1 as [|c s _ IH].
  - apply consistent_initial.
  - destruct c; cbn.
    + apply consistent_handleCellClick. assumption.
    + apply consistent_newRound.
    + apply consistent_resetAll.
Qed.

(** In a reachable state the flag [gameOver] and the status computed from
    the board agree. *)
Lemma reachable_gameOver_ongoing s :
  reachable s -> (gameOver s = false <-> result s = ongoing).
Proof.
  intros Hs. destruct (reachable_consistent s Hs) as (_ & Hg & _).
  rewrite Hg. destruct (result s); split; congruence.
Qed.

(** C2.  A click on a cell that already holds a mark, or a click while
    [gameOver] is set, does nothing: the handler returns a state (it has
    no failing path) and that state is the state it was given, with the
    same board, scores, winning line, [gameOver] flag and active player.
    This holds for every index, in particular for the indices 0 to 8. *)
Theorem handleCellClick_occupied_or_over (s : GameState) (index : Z) :
  (exists p, readCell (board s) index = Some (mark p))
  \/ gameOver s = true ->
  handleCellClick index s = s.
Proof.
  intros [[p Hp]|Hover]; apply handleCellClick_rejected.
  - left. rewrite Hp. discriminate.
  - right. assumption.
Qed.

Lemma handleCellClick_occupied_or_over_witness :
  let s := handleCellClick 0 initialState in
  ((exists p, readCell (board s) 0 = Some (mark p)) \/ gameOver s = true)
  /\ handleCellClick 0 s = s.
Proof.
  cbv zeta.
  assert (Hocc : (exists p,
             readCell (board (handleCellClick 0 initialState)) 0
             = Some (mark p))
           \/ gameOver (handleCellClick 0 initialState) = true).
  { left. exists PX. reflexivity. }
  split; [exact Hocc|].
  exact (handleCellClick_occupied_or_over _ 0 Hocc).
Defined.

(** C10.  On a board of 9 cells, a click at an integer index below 0 or
    above 8 reads [undefined], which is not the empty mark, so the guard
    returns before any assignment and the whole state is unchanged. *)
Theorem handleCellClick_out_of_range (s : GameState) (index : Z) :
  length (board s) = 9 ->
  (index < 0 \/ 8 < index)%Z ->
  readCell (board s) index = None /\ handleCellClick index s = s.
Proof.
  intros Hlen Hrange.
  assert (Hrd : readCell (board s) index = None).
  { unfold readCell. destruct (Z.ltb_spec index 0) as [Hlt|Hge];
      [reflexivity|].
    apply lookup_ge_None. rewrite Hlen. lia. }
  split; [assumption|].
  apply handleCellClick_rejected. left. rewrite Hrd. discriminate.
Qed.

Lemma handleCellClick_out_of_range_witness :
  (length (board initialState) = 9 /\ (-1 < 0 \/ 8 < -1)%Z
   /\ handleCellClick (-1) initialState = initialState)
  /\ (length (board initialState) = 9 /\ (9 < 0 \/ 8 < 9)%Z
      /\ handleCellClick 9 initialState = initialState).
Proof.
  assert (Hlen : length (board initialState) = 9) by reflexivity.
  assert (Hlow : (-1 < 0 \/ 8 < -1)%Z) by (left; lia).
  assert (Hhigh : (9 < 0 \/ 8 < 9)%Z) by (right; lia).
  split; (split; [exact Hlen|]).
  - split; [exact Hlow|].
    exact (proj2 (handleCellClick_out_of_range initialState (-1) Hlen Hlow)).
  - split; [exact Hhigh|].
    exact (proj2 (handleCellClick_out_of_range initialState 9 Hlen Hhigh)).
Defined.

(** C1.  In a state that is not over (the flag [gameOver] is unset, or the
    state is reachable and its status is [ongoing]), a click on an empty
    cell writes the mark of the current player at that index and leaves
    the other cells alone.  Then, with the board re-evaluated: if there is
    a winner, [gameOver] is set, [winningLine] is the winning triple and
    the score of the winner grows by 1, the other counters staying as they
    are; otherwise, if the board is full, [gameOver] is set and the draw
    counter grows by 1; otherwise the active player toggles and neither
    the scores nor [gameOver] change. *)
Theorem handleCellClick_valid_move (s : GameState) (index : Z) :
  gameOver s = false \/ (reachable s /\ result s = ongoing) ->
  readCell (board s) index = Some blank ->
  let s' := handleCellClick index s in
  let k := Z.to_nat index in
  ((0 <= index)%Z /\ k < length (board s))
  /\ board s' = <[k := mark (currentPlayer s)]> (board s)
  /\ board s' !! k = Some (mark (currentPlayer s))
  /\ (forall j, j <> k -> board s' !! j = board s !! j)
  /\ ((exists w a b c,
          calculateWinner (board s') = mkResult (Some w) [a; b; c]
          /\ In (a, b, c) lines
          /\ lineHolds (board s') w (a, b, c)
          /\ gameOver s' = true
          /\ winningLine s' = [a; b; c]
          /\ scoreOf w (scores s') = scoreOf w (scores s) + 1
          /\ scoreOf (opponent w) (scores s')
             = scoreOf (opponent w) (scores s)
          /\ draws (scores s') = draws (scores s))
      \/ (winner (calculateWinner (board s')) = None
          /\ isBoardFull (board s') = true
          /\ gameOver s' = true
          /\ draws (scores s') = draws (scores s) + 1
          /\ scoreX (scores s') = scoreX (scores s)
          /\ scoreO (scores s') = scoreO (scores s))
      \/ (winner (calculateWinner (board s')) = None
          /\ isBoardFull (board s') = false
          /\ currentPlayer s' = opponent (currentPlayer s)
          /\ xIsNext s' = negb (xIsNext s)
          /\ scores s' = scores s
          /\ gameOver s' = gameOver s)).
Proof.
  intros Hstat Hc s' k.
  assert (Hg : gameOver s = false).
  { destruct Hstat as [Hg|[Hr Ho]]; [assumption|].
    apply reachable_gameOver_ongoing; assumption. }
  destruct (readCell_Some _ _ _ Hc) as (Hpos & Hlt & Hk).
  assert (Hs' : s' = handleCellClick index s) by reflexivity.
  rewrite handleCellClick_accepted in Hs' by assumption. cbv zeta in Hs'.
  fold k in Hs', Hlt.
  set (board' := <[k := mark (currentPlayer s)]> (board s)) in *.
  assert (Hb : board s' = board').
  { rewrite Hs'. destruct (winner (calculateWinner board'));
      [|destruct (isBoardFull board')]; reflexivity. }
  split; [split; assumption|].
  split; [assumption|]. rewrite Hb.
  split; [apply list_lookup_insert_eq; assumption|].
  split; [intros j Hj; apply list_lookup_insert_ne; congruence|].
  destruct (calculateWinner_cases board')
    as [(a & b & c & p & Hin & Hp & Hr)|[Hn Hr]].
  - left. exists p, a, b, c. rewrite Hr in Hs'. cbn in Hs'.
    rewrite Hs'. cbn [gameOver winningLine scores].
    repeat (split; [solve [auto]|]).
    destruct p; cbn; auto.
  - right. rewrite Hr in Hs'. cbn [winner] in Hs'. rewrite Hr. cbn [winner].
    destruct (isBoardFull board') eqn:Hf; [left|right]; rewrite Hs';
      cbn [gameOver winningLine scores xIsNext]; rewrite ?Hg.
    + repeat (split; [solve [auto]|]). cbn. auto.
    + unfold currentPlayer. cbn [xIsNext].
      do 2 (split; [reflexivity|]).
      split; [destruct (xIsNext s); reflexivity|]. auto.
Qed.

Lemma handleCellClick_valid_move_witness :
  (gameOver initialState = false
   \/ (reachable initialState /\ result initialState = ongoing))
  /\ readCell (board initialState) 4 = Some blank
  /\ board (handleCellClick 4 initialState) !! 4 = Some (mark PX).
Proof.
  assert (Hstat : gameOver initialState = false
                  \/ (reachable initialState /\ result initialState = ongoing)).
  { right. split; [apply reach_init | reflexivity]. }
  assert (Hc : readCell (board initialState) 4 = Some blank) by reflexivity.
  split; [exact Hstat|]. split; [exact Hc|].
  exact (proj1 (proj2 (proj2
           (handleCellClick_valid_move initialState 4 Hstat Hc)))).
Defined.

(** ** Reachable states *)

Lemma reachable_run cs s : reachable s -> reachable (run cs s).
Proof.
  revert s. induction cs as [|c cs IH]; intros s Hs; cbn.
  - assumption.
  - apply IH. apply reach_step. assumption.
Qed.

(** C4.  In every state reachable from the initial state by moves, new
    rounds and resets, the cached fields agree with the board.  Exactly
    one of the three statuses win, draw, ongoing holds, and which one
    depends on the board alone.  [gameOver] is set if and only if the board
    has a winner or is full.  [winningLine] is non-empty if and only if the
    board has a winner, and then it is one of the 8 winning lines and its
    three cells hold the same mark. *)
Theorem reachable_cached_state_consistent (s : GameState) :
  reachable s ->
  let isWin := exists w l, result s = win w l in
  let isDraw := result s = draw in
  let isOngoing := result s = ongoing in
  ((isWin /\ ~ isDraw /\ ~ isOngoing)
   \/ (~ isWin /\ isDraw /\ ~ isOngoing)
   \/ (~ isWin /\ ~ isDraw /\ isOngoing))
  /\ (isWin <-> hasWinner (board s))
  /\ (isDraw <-> ~ hasWinner (board s) /\ fullBoard (board s))
  /\ (isOngoing <-> ~ hasWinner (board s) /\ ~ fullBoard (board s))
  /\ (gameOver s = true <-> hasWinner (board s) \/ fullBoard (board s))
  /\ (winningLine s <> [] <-> hasWinner (board s))
  /\ (winningLine s <> [] ->
      exists a b c p,
        winningLine s = [a; b; c] /\ In (a, b, c) lines
        /\ lineHolds (board s) p (a, b, c)).
Proof.
  intros Hs isWin isDraw isOngoing.
  destruct (reachable_consistent s Hs) as (_ & Hg & Hl).
  pose proof (boardStatus_win (board s)) as HW.
  pose proof (boardStatus_draw (board s)) as HD.
  pose proof (boardStatus_ongoing (board s)) as HO.
  fold (result s) in HW, HD, HO. fold isWin in HW.
  fold isDraw in HD. fold isOngoing in HO.
  split.
  { unfold isWin, isDraw, isOngoing. destruct (result s) as [w l| |].
    - left. split; [eauto|]. split; discriminate.
    - right; left. split; [intros (w & l & H); discriminate|].
      split; [reflexivity|discriminate].
    - right; right. split; [intros (w & l & H); discriminate|].
      split; [discriminate|reflexivity]. }
  split; [assumption|]. split; [assumption|]. split; [assumption|].
  split.
  { rewrite Hg. rewrite <- HW.
    unfold isWin, isDraw, isOngoing in *.
    destruct (result s) as [w l| |] eqn:Hres.
    - split; [intros _; left; eauto|reflexivity].
    - split; [intros _; right; apply HD; reflexivity|reflexivity].
    - split; [discriminate|].
      destruct HO as [HO _]. specialize (HO eq_refl).
      intros [(w & l & H)|Hfull]; [discriminate|]. tauto. }
  rewrite Hl.
  destruct (calculateWinner_cases (board s))
    as [(a & b & c & p & Hin & Hp & Hr)|[Hn Hr]]; rewrite Hr; cbn [line].
  - split.
    + split; [|discriminate]. intros _. exists (a, b, c).
      split; [assumption|]. exists p. assumption.
    + intros _. exists a, b, c, p. auto.
  - split.
    + split; [congruence|tauto].
    + congruence.
Qed.

Lemma reachable_cached_state_consistent_witness :
  let s := run [applyMove 0; applyMove 4; applyMove 1; applyMove 5;
                applyMove 2] initialState in
  reachable s
  /\ (gameOver s = true <-> hasWinner (board s) \/ fullBoard (board s))
  /\ (winningLine s <> [] <-> hasWinner (board s)).
Proof.
  cbv zeta.
  assert (Hs : reachable (run [applyMove 0; applyMove 4; applyMove 1;
                               applyMove 5; applyMove 2] initialState)).
  { apply reachable_run. apply reach_init. }
  split; [exact Hs|].
  pose proof (reachable_cached_state_consistent _ Hs) as H.
  cbv zeta in H.
  split; [exact (proj1 (proj2 (proj2 (proj2 (proj2 H)))))
         |exact (proj1 (proj2 (proj2 (proj2 (proj2 (proj2 H))))))].
Defined.

(** ** New round and reset *)

(** C5.  [newRound] clears the board, unsets [gameOver], empties
    [winningLine], so that the status is [ongoing]; the active player is X
    when the prior state was over and is the prior active player
    otherwise; the three score counters are unchanged. *)
Theorem newRound_effect (s : GameState) :
  board (newRound s) = replicate 9 blank
  /\ gameOver (newRound s) = false
  /\ winningLine (newRound s) = []
  /\ result (newRound s) = ongoing
  /\ currentPlayer (newRound s)
     = (if gameOver s then PX else currentPlayer s)
  /\ scoreX (scores (newRound s)) = scoreX (scores s)
  /\ scoreO (scores (newRound s)) = scoreO (scores s)
  /\ draws (scores (newRound s)) = draws (scores s).
Proof.
  repeat (split; [reflexivity|]).
  split; [|repeat split].
  unfold newRound, currentPlayer. cbn [xIsNext].
  destruct (gameOver s); reflexivity.
Qed.

(** For reachable states the same holds with the status computed from the
    board in place of the flag. *)
Lemma newRound_player_by_status s :
  reachable s ->
  currentPlayer (newRound s)
  = match result s with ongoing => currentPlayer s | _ => PX end.
Proof.
  intros Hs. destruct (reachable_consistent s Hs) as (_ & Hg & _).
  unfold newRound, currentPlayer. cbn [xIsNext]. rewrite Hg.
  destruct (result s); reflexivity.
Qed.

(** Scenario 4 of the specification. *)
Example scenario4 :
  let won := run [applyMove 0; applyMove 4; applyMove 1; applyMove 5;
                  applyMove 2] initialState in
  let s := newRound won in
  board s = replicate 9 blank /\ result s = ongoing
  /\ currentPlayer s = PX /\ scores s = scores won.
Proof. vm_compute. auto. Qed.

(** C8.  From any state, [resetAll] followed by [newRound] gives the same
    state as [resetAll] twice: empty board, X to move, status [ongoing],
    empty winning line, all scores zero. *)
Theorem resetAll_then_newRound (s : GameState) :
  newRound (resetAll s) = resetAll (resetAll s)
  /\ board (newRound (resetAll s)) = replicate 9 blank
  /\ currentPlayer (newRound (resetAll s)) = PX
  /\ result (newRound (resetAll s)) = ongoing
  /\ winningLine (newRound (resetAll s)) = []
  /\ gameOver (newRound (resetAll s)) = false
  /\ scores (newRound (resetAll s)) = mkScores 0 0 0.
Proof. repeat split. Qed.

(** ** Scores *)

(** C6.  A move never lowers a counter and a new round leaves the three
    counters as they are (a reset puts them back to zero).  A move either
    makes the game terminal, [gameOver] going from unset to set, and then
    exactly one of the three counters grows, by exactly 1; or it leaves
    [gameOver] and the three counters as they were. *)
Theorem scores_monotone_single_increment (s : GameState) (index : Z) :
  let s' := handleCellClick index s in
  (scoreX (scores s) <= scoreX (scores s')
   /\ scoreO (scores s) <= scoreO (scores s')
   /\ draws (scores s) <= draws (scores s'))
  /\ scores (newRound s) = scores s
  /\ scores (resetAll s) = mkScores 0 0 0
  /\ ((gameOver s = false /\ gameOver s' = true
       /\ (scores s'
           = mkScores (scoreX (scores s) + 1) (scoreO (scores s))
                      (draws (scores s))
           \/ scores s'
              = mkScores (scoreX (scores s)) (scoreO (scores s) + 1)
                         (draws (scores s))
           \/ scores s'
              = mkScores (scoreX (scores s)) (scoreO (scores s))
                         (draws (scores s) + 1)))
      \/ (gameOver s' = gameOver s /\ scores s' = scores s)).
Proof.
  intros s'.
  assert (Hcases :
    (gameOver s = false /\ gameOver s' = true
       /\ (scores s'
           = mkScores (scoreX (scores s) + 1) (scoreO (scores s))
                      (draws (scores s))
           \/ scores s'
              = mkScores (scoreX (scores s)) (scoreO (scores s) + 1)
                         (draws (scores s))
           \/ scores s'
              = mkScores (scoreX (scores s)) (scoreO (scores s))
                         (draws (scores s) + 1)))
      \/ (gameOver s' = gameOver s /\ scores s' = scores s)).
  { subst s'.
    destruct (handleCellClick_dichotomy index s) as [Hr|[Hg Hc]].
    - right. rewrite handleCellClick_rejected by assumption. auto.
    - rewrite handleCellClick_accepted by assumption. cbv zeta.
      destruct (winner (calculateWinner _)) as [[|]|].
      + left. cbn. auto.
      + left. cbn. auto.
      + destruct (isBoardFull _).
        * left. cbn. auto.
        * right. cbn. auto. }
  split; [|split; [reflexivity|split; [reflexivity|exact Hcases]]].
  destruct Hcases as [(_ & _ & [H|[H|H]])|[_ H]]; rewrite H; cbn; lia.
Qed.

(** ** Counting marks *)

(** Overwriting one cell moves the count by the difference of the test on
    the old and on the new content. *)
Lemma countCells_insert f (squares : list Cell) k old new :
  squares !! k = Some old ->
  countCells f (<[k := new]> squares) + (if f old then 1 else 0)
  = countCells f squares + (if f new then 1 else 0).
Proof.
  revert k. induction squares as [|c rest IH]; intros k Hk.
  - discriminate.
  - destruct k as [|k].
    + injection Hk as ->. cbn. lia.
    + specialize (IH k Hk).
      change (<[S k := new]> (c :: rest)) with (c :: <[k := new]> rest).
      cbn [countCells]. lia.
Qed.

Lemma countMarks_insert_blank (squares : list Cell) k p :
  squares !! k = Some blank ->
  countMarks (<[k := mark p]> squares) = S (countMarks squares).
Proof.
  intros Hk. unfold countMarks.
  pose proof (countCells_insert
    (fun c => negb (bool_decide (c = blank))) squares k blank (mark p) Hk)
    as H.
  cbv beta in H. repeat case_bool_decide; try congruence.
  cbn [negb] in H. lia.
Qed.

Lemma countOf_insert_blank (squares : list Cell) k p q :
  squares !! k = Some blank ->
  countOf q (<[k := mark p]> squares)
  = countOf q squares + (if bool_decide (p = q) then 1 else 0).
Proof.
  intros Hk. unfold countOf.
  pose proof (countCells_insert
    (fun c => bool_decide (c = mark q)) squares k blank (mark p) Hk) as H.
  cbv beta in H.
  rewrite (bool_decide_eq_false_2 (blank = mark q)) in H by discriminate.
  rewrite Nat.add_0_r in H. rewrite H. f_equal.
  destruct p, q; reflexivity.
Qed.

(** The move count is the number of X marks plus the number of O marks. *)
Lemma countMarks_split (squares : list Cell) :
  countMarks squares = countOf PX squares + countOf PO squares.
Proof.
  unfold countMarks, countOf.
  induction squares as [|c rest IH]; [reflexivity|].
  cbn [countCells].
  destruct c as [[|]|]; repeat case_bool_decide; try congruence;
    cbn [negb]; lia.
Qed.

Lemma countCells_drop f (squares : list Cell) n :
  countCells f (drop n squares) <= countCells f squares.
Proof.
  revert n. induction squares as [|c rest IH]; intros [|n]; cbn; try lia.
  specialize (IH n). lia.
Qed.

(** A cell that passes the test counts for one, on top of the cells that
    come after it. *)
Lemma countCells_lookup f (squares : list Cell) k c :
  squares !! k = Some c -> f c = true ->
  1 + countCells f (drop (S k) squares) <= countCells f squares.
Proof.
  revert k. induction squares as [|d rest IH]; intros k Hk Hf.
  - discriminate.
  - destruct k as [|k]; cbn in Hk.
    + injection Hk as ->. cbn [countCells drop]. rewrite drop_0, Hf. lia.
    + specialize (IH k Hk Hf). cbn [countCells]. cbn [drop] in *. lia.
Qed.

(** Three cells at increasing indices that pass the test count for 3. *)
Lemma countCells_three f (squares : list Cell) a b c x y z :
  a < b -> b < c ->
  squares !! a = Some x -> squares !! b = Some y -> squares !! c = Some z ->
  f x = true -> f y = true -> f z = true ->
  3 <= countCells f squares.
Proof.
  intros Hab Hbc Ha Hb Hc Hx Hy Hz.
  pose proof (countCells_lookup f squares a x Ha Hx) as H1.
  assert (Hb' : drop (S a) squares !! (b - S a) = Some y).
  { rewrite lookup_drop. replace (S a + (b - S a)) with b by lia.
    assumption. }
  pose proof (countCells_lookup f _ _ y Hb' Hy) as H2.
  assert (Hc' : drop (S (b - S a)) (drop (S a) squares) !! (c - S b)
                = Some z).
  { rewrite !lookup_drop.
    replace (S a + (S (b - S a) + (c - S b))) with c by lia. assumption. }
  pose proof (countCells_lookup f _ _ z Hc' Hz) as H3.
  lia.
Qed.

(** The triples of the table list their indices in increasing order. *)
Lemma lines_increasing a b c : In (a, b, c) lines -> a < b /\ b < c.
Proof.
  unfold lines. cbn.
  intros H; repeat (destruct H as [H|H]; [injection H as <- <- <-; lia|]).
  contradiction.
Qed.

(** A winner owns at least 3 cells. *)
Lemma winner_three_marks (squares : list Cell) p :
  winner (calculateWinner squares) = Some p -> 3 <= countOf p squares.
Proof.
  destruct (calculateWinner_cases squares)
    as [(a & b & c & q & Hin & (Ha & Hb & Hc) & Hr)|[_ Hr]];
    rewrite Hr; cbn [winner]; [|discriminate].
  intros [= ->]. destruct (lines_increasing a b c Hin) as [Hab Hbc].
  unfold countOf.
  eapply (countCells_three _ squares a b c); eauto;
    apply bool_decide_eq_true; reflexivity.
Qed.

(** ** Alternating play *)

Lemma legalPlay_alternating s : legalPlay s -> alternating s.
Proof.
  induction 1 as [|index s Hs IH Hg Hc].
  - unfold alternating. vm_compute. split; [reflexivity|]. split; lia.
  - destruct IH as [IH _]. specialize (IH Hg).
    destruct (readCell_Some _ _ _ Hc) as (_ & _ & Hk).
    rewrite handleCellClick_accepted by assumption. cbv zeta.
    pose proof (countOf_insert_blank (board s) _ (currentPlayer s) PX Hk)
      as HX.
    pose proof (countOf_insert_blank (board s) _ (currentPlayer s) PO Hk)
      as HO.
    unfold currentPlayer in *.
    destruct (winner (calculateWinner _)); [|destruct (isBoardFull _)];
      unfold alternating; cbn [board gameOver xIsNext];
      rewrite HX, HO; clear HX HO;
      destruct (xIsNext s); repeat case_bool_decide; try congruence;
      cbn [negb]; (split; [intros; try lia; discriminate|lia]).
Qed.

(** Clicks that the guard rejects add no state: every sequence of clicks
    from the initial state ends in a state of legal play. *)
Lemma legalPlay_click index s : legalPlay s -> legalPlay (handleCellClick index s).
Proof.
  intros Hs.
  destruct (handleCellClick_dichotomy index s) as [Hr|[Hg Hc]].
  - rewrite handleCellClick_rejected by assumption. assumption.
  - apply legal_move; assumption.
Qed.

Lemma legalPlay_clicks (indices : list Z) :
  legalPlay (run (map applyMove indices) initialState).
Proof.
  assert (H : forall s, legalPlay s ->
                        legalPlay (run (map applyMove indices) s)).
  { induction indices as [|i rest IH]; intros s Hs; cbn.
    - assumption.
    - apply IH. apply legalPlay_click. assumption. }
  apply H. apply legal_init.
Qed.

(** C7.  On every board reached from the empty board by alternating legal
    moves, X first, [calculateWinner] reports no winner while fewer than 5
    marks are on the board. *)
Theorem no_winner_before_five_marks (s : GameState) :
  legalPlay s ->
  countMarks (board s) < 5 ->
  calculateWinner (board s) = mkResult None [].
Proof.
  intros Hs Hlt.
  destruct (legalPlay_alternating s Hs) as (_ & Hlo & Hhi).
  pose proof (countMarks_split (board s)) as Hsplit.
  destruct (winner (calculateWinner (board s))) as [p|] eqn:Hw.
  - pose proof (winner_three_marks _ _ Hw) as H3. destruct p; lia.
  - pose proof (winner_None_line _ Hw) as Hl.
    destruct (calculateWinner (board s)) as [w l]. cbn in *. congruence.
Qed.

Lemma no_winner_before_five_marks_witness :
  let s := handleCellClick 5 (handleCellClick 1 (handleCellClick 4
             (handleCellClick 0 initialState))) in
  legalPlay s /\ countMarks (board s) < 5
  /\ calculateWinner (board s) = mkResult None [].
Proof.
  cbv zeta.
  assert (Hs : legalPlay (handleCellClick 5 (handleCellClick 1
                 (handleCellClick 4 (handleCellClick 0 initialState))))).
  { repeat (apply legal_move; [|reflexivity|reflexivity]).
    apply legal_init. }
  assert (Hlt : countMarks (board (handleCellClick 5 (handleCellClick 1
                  (handleCellClick 4 (handleCellClick 0 initialState))))) < 5).
  { vm_compute. lia. }
  split; [exact Hs|]. split; [exact Hlt|].
  exact (no_winner_before_five_marks _ Hs Hlt).
Defined.

(** ** The active player and the move count *)

(** C9, as stated, fails in two reachable states.  After X completes the
    top row with the fifth mark, [xIsNext] is not toggled: the current
    player is X while 5 cells are filled.  After one move and a new round,
    the board is empty again while O is still the current player. *)
Lemma currentPlayer_parity_counterexample :
  let won := run [applyMove 0; applyMove 4; applyMove 1; applyMove 5;
                  applyMove 2] initialState in
  let restarted := run [applyMove 0; startNewRound] initialState in
  (reachable won /\ currentPlayer won = PX /\ countMarks (board won) = 5
   /\ ~ (currentPlayer won = PX
         <-> Nat.even (countMarks (board won)) = true))
  /\ (reachable restarted /\ currentPlayer restarted = PO
      /\ countMarks (board restarted) = 0
      /\ ~ (currentPlayer restarted = PX
            <-> Nat.even (countMarks (board restarted)) = true)).
Proof.
  cbv zeta. split.
  - split; [apply reachable_run, reach_init|].
    split; [reflexivity|]. split; [reflexivity|].
    intros [Hto _]. specialize (Hto eq_refl). vm_compute in Hto.
    discriminate.
  - split; [apply reachable_run, reach_init|].
    split; [reflexivity|]. split; [reflexivity|].
    intros [_ Hfrom]. specialize (Hfrom eq_refl). vm_compute in Hfrom.
    discriminate.
Qed.

Lemma reachableXFirst_reachable s : reachableXFirst s -> reachable s.
Proof.
  induction 1 as [|index s _ IH|s _ IH|s _ IH _].
  - apply reach_init.
  - apply (reach_step (applyMove index)). assumption.
  - apply (reach_step resetAllCmd). assumption.
  - apply (reach_step startNewRound). assumption.
Qed.

Lemma xIsNext_parity s :
  reachableXFirst s ->
  gameOver s = false ->
  xIsNext s = Nat.even (countMarks (board s)).
Proof.
  induction 1 as [|index s Hs IH|s Hs IH|s Hs IH Hround].
  - reflexivity.
  - destruct (handleCellClick_dichotomy index s) as [Hr|[Hg Hc]].
    + rewrite handleCellClick_rejected by assumption. assumption.
    + specialize (IH Hg).
      destruct (readCell_Some _ _ _ Hc) as (_ & _ & Hk).
      rewrite handleCellClick_accepted by assumption. cbv zeta.
      destruct (winner (calculateWinner _)); [discriminate|].
      destruct (isBoardFull _); [discriminate|].
      cbn [board gameOver xIsNext]. intros _.
      rewrite countMarks_insert_blank by assumption.
      rewrite Nat.even_succ, <- Nat.negb_even, IH. reflexivity.
  - reflexivity.
  - intros _. unfold newRound. cbn [board xIsNext].
    destruct (gameOver s) eqn:Hg; [reflexivity|].
    destruct Hround as [Hover|Hx]; [discriminate|].
    rewrite Hx. reflexivity.
Qed.

(** C9, amended.  In every state reached from the initial state by moves,
    resets, and new rounds started only once the round is over or while X
    is to move, and in which the round is not over, the current player is
    X if and only if the number of non-empty cells is even. *)
Theorem currentPlayer_parity_in_round (s : GameState) :
  reachableXFirst s ->
  gameOver s = false ->
  (currentPlayer s = PX <-> Nat.even (countMarks (board s)) = true).
Proof.
  intros Hs Hg. rewrite <- (xIsNext_parity s Hs Hg).
  unfold currentPlayer. destruct (xIsNext s); split; congruence.
Qed.

Lemma currentPlayer_parity_in_round_witness :
  let s := handleCellClick 0 initialState in
  reachableXFirst s /\ gameOver s = false
  /\ (currentPlayer s = PX <-> Nat.even (countMarks (board s)) = true).
Proof.
  cbv zeta.
  assert (Hs : reachableXFirst (handleCellClick 0 initialState)).
  { apply xfirst_move. apply xfirst_init. }
  assert (Hg : gameOver (handleCellClick 0 initialState) = false)
    by reflexivity.
  split; [exact Hs|]. split; [exact Hg|].
  exact (currentPlayer_parity_in_round _ Hs Hg).
Defined.

(** ** Further properties of the engine *)

Lemma reachable_board_length s : reachable s -> length (board s) = 9.
Proof. intros Hs. apply (reachable_consistent s Hs). Qed.

Lemma reachable_not_over_no_winner s :
  reachable s -> gameOver s = false -> ~ hasWinner (board s).
Proof.
  intros Hs Hg. apply reachable_gameOver_ongoing in Hg; [|assumption].
  apply boardStatus_ongoing in Hg. tauto.
Qed.

(** A mark placed on an empty cell of a board without a winner can only
    complete lines that pass through that cell, and only for the player
    who placed it. *)
Lemma new_line_through_cell (squares : list Cell) k q p a b c :
  ~ hasWinner squares ->
  squares !! k = Some blank ->
  In (a, b, c) lines ->
  lineHolds (<[k := mark q]> squares) p (a, b, c) ->
  p = q /\ (k = a \/ k = b \/ k = c).
Proof.
  intros Hn Hk Hin (Ha & Hb & Hc).
  pose proof (lookup_lt_Some _ _ _ Hk) as Hlt.
  assert (Hat : forall j, <[k := mark q]> squares !! j = Some (mark p) ->
                          j = k -> p = q).
  { intros j Hj ->. rewrite list_lookup_insert_eq in Hj by assumption.
    congruence. }
  destruct (decide (a = k)) as [Hak|Hak]; [split; [eauto|auto]|].
  destruct (decide (b = k)) as [Hbk|Hbk]; [split; [eauto|auto]|].
  destruct (decide (c = k)) as [Hck|Hck]; [split; [eauto|auto]|].
  exfalso. apply Hn. exists (a, b, c). split; [assumption|]. exists p.
  rewrite list_lookup_insert_ne in Ha, Hb, Hc by congruence.
  repeat split; assumption.
Qed.

(** X1.  In a reachable state, when a click on an empty cell completes a
    line, the winner that [calculateWinner] reports is the player who
    clicked, the score that grows is that player's, and the winning line
    passes through the clicked cell. *)
Theorem winning_move_credits_mover (s : GameState) (index : Z) (w : Player) :
  reachable s ->
  gameOver s = false ->
  readCell (board s) index = Some blank ->
  winner (calculateWinner (board (handleCellClick index s))) = Some w ->
  w = currentPlayer s
  /\ scoreOf (currentPlayer s) (scores (handleCellClick index s))
     = scoreOf (currentPlayer s) (scores s) + 1
  /\ In (Z.to_nat index) (winningLine (handleCellClick index s))
  /\ View.isWinningCell (handleCellClick index s) index = true.
Proof.
  intros Hs Hg Hc.
  destruct (readCell_Some _ _ _ Hc) as (Hpos & _ & Hk).
  pose proof (reachable_not_over_no_winner s Hs Hg) as Hn.
  rewrite handleCellClick_accepted by assumption. cbv zeta.
  set (board' := <[Z.to_nat index := mark (currentPlayer s)]> (board s)).
  destruct (calculateWinner_cases board')
    as [(a & b & c & p & Hin & Hp & Hr)|[_ Hr]]; rewrite Hr; cbn [winner];
    [|destruct (isBoardFull board'); cbn [board]; rewrite Hr; discriminate].
  cbn [board scores winningLine line]. rewrite Hr. cbn [winner].
  intros [= <-].
  destruct (new_line_through_cell _ _ _ _ _ _ _ Hn Hk Hin Hp) as [-> Hthru].
  assert (Hmem : In (Z.to_nat index) [a; b; c]).
  { cbn. destruct Hthru as [->|[->| ->]]; auto. }
  split; [reflexivity|].
  split; [destruct (currentPlayer s); reflexivity|].
  split; [assumption|].
  unfold View.isWinningCell. cbn [winningLine].
  apply existsb_exists. exists (Z.to_nat index). split; [assumption|].
  apply Z.eqb_eq. lia.
Qed.

Lemma winning_move_credits_mover_witness :
  let s := run [applyMove 0; applyMove 4; applyMove 1; applyMove 5]
               initialState in
  reachable s /\ gameOver s = false
  /\ readCell (board s) 2 = Some blank
  /\ winner (calculateWinner (board (handleCellClick 2 s))) = Some PX
  /\ PX = currentPlayer s.
Proof.
  cbv zeta.
  assert (Hs : reachable (run [applyMove 0; applyMove 4; applyMove 1;
                               applyMove 5] initialState)).
  { apply reachable_run, reach_init. }
  assert (Hg : gameOver (run [applyMove 0; applyMove 4; applyMove 1;
                              applyMove 5] initialState) = false)
    by reflexivity.
  assert (Hc : readCell (board (run [applyMove 0; applyMove 4; applyMove 1;
                                     applyMove 5] initialState)) 2
               = Some blank) by reflexivity.
  assert (Hw : winner (calculateWinner (board (handleCellClick 2
                 (run [applyMove 0; applyMove 4; applyMove 1; applyMove 5]
                      initialState)))) = Some PX) by reflexivity.
  split; [exact Hs|]. split; [exact Hg|]. split; [exact Hc|].
  split; [exact Hw|].
  exact (proj1 (winning_move_credits_mover _ 2 PX Hs Hg Hc Hw)).
Defined.

(** In a reachable state whose status is a win, the winner is the current
    player: the winning move does not toggle [xIsNext]. *)
Lemma reachable_winner_is_current s :
  reachable s ->
  forall w, winner (calculateWinner (board s)) = Some w ->
            w = currentPlayer s.
Proof.
  induction 1 as [|c s Hs IH].
  - discriminate.
  - destruct c as [index| |]; cbn [exec]; [|discriminate|discriminate].
    destruct (handleCellClick_dichotomy index s) as [Hr|[Hg Hc]].
    + rewrite handleCellClick_rejected by assumption. assumption.
    + destruct (readCell_Some _ _ _ Hc) as (_ & _ & Hk).
      pose proof (reachable_not_over_no_winner s Hs Hg) as Hn.
      rewrite handleCellClick_accepted by assumption. cbv zeta.
      set (board' := <[Z.to_nat index := mark (currentPlayer s)]> (board s)).
      destruct (calculateWinner_cases board')
        as [(a & b & c & p & Hin & Hp & Hr)|[_ Hr]]; rewrite Hr;
        cbn [winner].
      * cbn [board]. rewrite Hr. cbn [winner]. intros w [= <-].
        destruct (new_line_through_cell _ _ _ _ _ _ _ Hn Hk Hin Hp)
          as [-> _].
        reflexivity.
      * destruct (isBoardFull board'); cbn [board]; rewrite Hr;
          discriminate.
Qed.

(** In a reachable state every complete line holds the mark of the current
    player, and the round is over. *)
Lemma reachable_lines_current s :
  reachable s ->
  forall t p, In t lines -> lineHolds (board s) p t ->
              p = currentPlayer s /\ gameOver s = true.
Proof.
  induction 1 as [|c s Hs IH].
  - intros [[a b] c] p _ (Ha & _). exfalso.
    apply lookup_replicate in Ha. destruct Ha as [Ha _]. discriminate.
  - destruct c as [index| |]; cbn [exec].
    + destruct (handleCellClick_dichotomy index s) as [Hr|[Hg Hc]].
      * rewrite handleCellClick_rejected by assumption. assumption.
      * destruct (readCell_Some _ _ _ Hc) as (_ & _ & Hk).
        pose proof (reachable_not_over_no_winner s Hs Hg) as Hn.
        intros [[a b] c] p Hin Hp.
        assert (Hb : board (handleCellClick index s)
                     = <[Z.to_nat index := mark (currentPlayer s)]> (board s)).
        { rewrite handleCellClick_accepted by assumption. cbv zeta.
          destruct (winner _); [|destruct (isBoardFull _)]; reflexivity. }
        rewrite Hb in Hp.
        destruct (new_line_through_cell _ _ _ _ _ _ _ Hn Hk Hin Hp)
          as [-> _].
        assert (Hw : hasWinner
                       (<[Z.to_nat index := mark (currentPlayer s)]> (board s))).
        { exists (a, b, c). split; [assumption|]. eexists. eassumption. }
        rewrite handleCellClick_accepted by assumption. cbv zeta.
        destruct (winner _) eqn:Hwin.
        -- split; reflexivity.
        -- apply winner_None_iff in Hwin. contradiction.
    + intros [[a b] c] p _ (Ha & _). exfalso.
      apply lookup_replicate in Ha. destruct Ha as [Ha _]. discriminate.
    + intros [[a b] c] p _ (Ha & _). exfalso.
      apply lookup_replicate in Ha. destruct Ha as [Ha _]. discriminate.
Qed.

(** X2.  In a reachable state two complete lines never belong to different
    players: every complete line of the table holds the mark of the winner
    that [calculateWinner] reports, who is the current player, so the order
    of the table decides the line that is shown but never the winner. *)
Theorem complete_lines_belong_to_winner (s : GameState)
  (t : nat * nat * nat) (p : Player) :
  reachable s ->
  In t lines ->
  lineHolds (board s) p t ->
  winner (calculateWinner (board s)) = Some p
  /\ p = currentPlayer s
  /\ gameOver s = true
  /\ forall t' q, In t' lines -> lineHolds (board s) q t' -> q = p.
Proof.
  intros Hs Hin Hp.
  destruct (reachable_lines_current s Hs t p Hin Hp) as [Hcur Hover].
  assert (Hall : forall t' q, In t' lines -> lineHolds (board s) q t' ->
                              q = p).
  { intros t' q Hin' Hq.
    destruct (reachable_lines_current s Hs t' q Hin' Hq) as [-> _].
    symmetry. assumption. }
  split; [|auto].
  destruct (calculateWinner_cases (board s))
    as [(a & b & c & q & Hin' & Hq & Hr)|[Hn _]].
  - rewrite Hr. cbn [winner]. f_equal. eapply Hall; eassumption.
  - exfalso. apply Hn. exists t. split; [assumption|]. exists p. assumption.
Qed.

Lemma complete_lines_belong_to_winner_witness :
  let s := run [applyMove 0; applyMove 3; applyMove 1; applyMove 5;
                applyMove 4; applyMove 7; applyMove 6; applyMove 8;
                applyMove 2] initialState in
  reachable s /\ In (2, 4, 6) lines /\ lineHolds (board s) PX (2, 4, 6)
  /\ lineHolds (board s) PX (0, 1, 2)
  /\ calculateWinner (board s) = mkResult (Some PX) [0; 1; 2]
  /\ winner (calculateWinner (board s)) = Some PX.
Proof.
  cbv zeta.
  assert (Hs : reachable (run [applyMove 0; applyMove 3; applyMove 1;
                 applyMove 5; applyMove 4; applyMove 7; applyMove 6;
                 applyMove 8; applyMove 2] initialState)).
  { apply reachable_run, reach_init. }
  assert (Hin : In (2, 4, 6) lines) by (cbn; auto 10).
  assert (Hp : lineHolds (board (run [applyMove 0; applyMove 3; applyMove 1;
                 applyMove 5; applyMove 4; applyMove 7; applyMove 6;
                 applyMove 8; applyMove 2] initialState)) PX (2, 4, 6)).
  { vm_compute. auto. }
  split; [exact Hs|]. split; [exact Hin|]. split; [exact Hp|].
  split; [vm_compute; auto|]. split; [reflexivity|].
  exact (proj1 (complete_lines_belong_to_winner _ _ _ Hs Hin Hp)).
Defined.

(** ** Properties of the presentation layer *)

Lemma readCell_of_nat (squares : list Cell) (idx : nat) :
  readCell squares (Z.of_nat idx) = squares !! idx.
Proof.
  unfold readCell. destruct (Z.ltb_spec (Z.of_nat idx) 0) as [Hlt|_];
    [lia|]. rewrite Nat2Z.id. reflexivity.
Qed.

(** X3.  In a reachable state a cell gets the class [win] only when the
    round is won: the status is a win of the current player on a line of
    the table, the index is one of the three indices of that line, and the
    cell holds the winner's mark. *)
Theorem highlighted_cell_holds_winner (s : GameState) (idx : Z) :
  reachable s ->
  View.isWinningCell s idx = true ->
  exists w a b c,
    result s = win w [a; b; c]
    /\ In (a, b, c) lines
    /\ w = currentPlayer s
    /\ gameOver s = true
    /\ (idx = Z.of_nat a \/ idx = Z.of_nat b \/ idx = Z.of_nat c)
    /\ readCell (board s) idx = Some (mark w).
Proof.
  intros Hs Hhl.
  destruct (reachable_consistent s Hs) as (_ & _ & Hl).
  unfold View.isWinningCell in Hhl. apply existsb_exists in Hhl.
  destruct Hhl as (i & Hi & Heq). apply Z.eqb_eq in Heq. subst idx.
  rewrite Hl in Hi.
  destruct (calculateWinner_cases (board s))
    as [(a & b & c & p & Hin & Hp & Hr)|[_ Hr]]; rewrite Hr in Hi;
    cbn [line] in Hi; [|contradiction].
  destruct (reachable_lines_current s Hs _ p Hin Hp) as [Hcur Hover].
  exists p, a, b, c.
  split; [unfold result, boardStatus; rewrite Hr; reflexivity|].
  split; [assumption|]. split; [assumption|]. split; [assumption|].
  destruct Hp as (Ha & Hb & Hc). rewrite readCell_of_nat.
  cbn in Hi. destruct Hi as [<-|[<-|[<-|[]]]]; auto.
Qed.

Lemma highlighted_cell_holds_winner_witness :
  let s := run [applyMove 0; applyMove 4; applyMove 1; applyMove 5;
                applyMove 2] initialState in
  reachable s /\ View.isWinningCell s 1 = true
  /\ exists w a b c,
       result s = win w [a; b; c]
       /\ In (a, b, c) lines
       /\ w = currentPlayer s
       /\ gameOver s = true
       /\ (1%Z = Z.of_nat a \/ 1%Z = Z.of_nat b \/ 1%Z = Z.of_nat c)
       /\ readCell (board s) 1 = Some (mark w).
Proof.
  cbv zeta.
  assert (Hs : reachable (run [applyMove 0; applyMove 4; applyMove 1;
                               applyMove 5; applyMove 2] initialState)).
  { apply reachable_run, reach_init. }
  assert (Hhl : View.isWinningCell (run [applyMove 0; applyMove 4;
                  applyMove 1; applyMove 5; applyMove 2] initialState) 1
                = true) by reflexivity.
  split; [exact Hs|]. split; [exact Hhl|].
  exact (highlighted_cell_holds_winner _ 1 Hs Hhl).
Defined.

(** X4.  For a cell of the board, the class [disabled] is set exactly
    when a click on the cell does nothing.  On a cell that is not
    disabled the click changes the state and places the mark of the
    current player, which is the mark that [data-hover] previews; a
    disabled cell has no hover preview. *)
Theorem disabled_cell_iff_click_ignored (s : GameState) (idx : nat)
  (cell : Cell) :
  board s !! idx = Some cell ->
  (View.cellDisabled s cell = true <-> handleCellClick (Z.of_nat idx) s = s)
  /\ (View.cellDisabled s cell = true <-> View.cellHover s cell = None)
  /\ (forall p, View.cellHover s cell = Some p ->
                board (handleCellClick (Z.of_nat idx) s) !! idx
                = Some (mark p)).
Proof.
  intros Hcell.
  pose proof (lookup_lt_Some _ _ _ Hcell) as Hlt.
  assert (Hrd : readCell (board s) (Z.of_nat idx) = Some cell)
    by (rewrite readCell_of_nat; assumption).
  assert (Hwrite : cell = blank -> gameOver s = false ->
            board (handleCellClick (Z.of_nat idx) s) !! idx
            = Some (mark (currentPlayer s))).
  { intros -> Hg. rewrite handleCellClick_accepted by assumption.
    cbv zeta. rewrite Nat2Z.id.
    destruct (winner _); [|destruct (isBoardFull _)]; cbn [board];
      apply list_lookup_insert_eq; assumption. }
  unfold View.cellDisabled, View.cellHover.
  destruct (decide (cell = blank)) as [Hb|Hb].
  - rewrite (bool_decide_eq_true_2 _ Hb). cbn [negb orb andb].
    destruct (gameOver s) eqn:Hg; cbn [negb].
    + split; [|split; [tauto|discriminate]].
      split; [|reflexivity]. intros _.
      apply handleCellClick_rejected. right. assumption.
    + split; [|split; [split; discriminate|]].
      * split; [discriminate|]. intros Hsame. exfalso.
        specialize (Hwrite Hb eq_refl). rewrite Hsame, Hcell, Hb in Hwrite.
        discriminate.
      * intros p [= <-]. apply Hwrite; [assumption|reflexivity].
  - rewrite (bool_decide_eq_false_2 _ Hb). cbn [negb orb andb].
    split; [|split; [tauto|discriminate]].
    split; [|reflexivity]. intros _.
    apply handleCellClick_rejected. left. rewrite Hrd. congruence.
Qed.

Lemma disabled_cell_iff_click_ignored_witness :
  let s := handleCellClick 0 initialState in
  board s !! 4 = Some blank
  /\ View.cellHover s blank = Some PO
  /\ board (handleCellClick 4 s) !! 4 = Some (mark PO).
Proof.
  cbv zeta.
  assert (Hcell : board (handleCellClick 0 initialState) !! 4 = Some blank)
    by reflexivity.
  assert (Hh : View.cellHover (handleCellClick 0 initialState) blank
               = Some PO) by reflexivity.
  split; [exact Hcell|]. split; [exact Hh|].
  exact (proj2 (proj2 (disabled_cell_iff_click_ignored _ 4 blank Hcell))
               PO Hh).
Defined.

(** X5.  In a reachable state the New Round button is disabled exactly
    when [newRound] would leave the state as it is. *)
Theorem newRound_button_disabled_iff_noop (s : GameState) :
  reachable s ->
  (View.newRoundDisabled s = true <-> newRound s = s).
Proof.
  intros Hs. destruct (reachable_consistent s Hs) as (Hlen & Hg & Hl).
  unfold View.newRoundDisabled. rewrite forallb_forall. split.
  - intros Hall.
    assert (Hb : board s = emptyBoard).
    { symmetry. apply replicate_as_Forall_2; [assumption|].
      apply Forall_forall. intros c Hc. apply list_elem_of_In in Hc.
      specialize (Hall c Hc). apply bool_decide_eq_true in Hall. auto. }
    unfold result in Hg. rewrite Hb in Hg, Hl.
    destruct s as [b x sc g wl]. cbn in *. subst. reflexivity.
  - intros Hsame c Hc. apply bool_decide_eq_true.
    rewrite <- Hsame in Hc. cbn [newRound board] in Hc.
    apply list_elem_of_In, elem_of_replicate in Hc. tauto.
Qed.

Lemma newRound_button_disabled_iff_noop_witness :
  reachable (newRound (handleCellClick 0 initialState))
  /\ View.newRoundDisabled (newRound (handleCellClick 0 initialState)) = true
  /\ newRound (newRound (handleCellClick 0 initialState))
     = newRound (handleCellClick 0 initialState).
Proof.
  assert (Hs : reachable (newRound (handleCellClick 0 initialState))).
  { apply (reach_step startNewRound). apply (reach_step (applyMove 0)).
    apply reach_init. }
  split; [exact Hs|]. split; [reflexivity|].
  exact (proj1 (newRound_button_disabled_iff_noop _ Hs) eq_refl).
Defined.

Module ViewFacts.
Import String.

(** X6.  In a reachable state the status chip and the score boxes agree
    with the flag [gameOver].  While the round is not over, the text
    announces the turn of the current player, the accent is that player's,
    and that player's score box is the only active one.  Once it is over,
    no score box is active, and either the text announces the win of the
    current player, with the accent [win] and that player's piece as icon,
    or it announces a draw, with the accent [draw] and no icon. *)
Theorem status_chip_follows_round (s : GameState) :
  reachable s ->
  (gameOver s = false
   /\ View.statusText s
      = ("Player " ++ View.playerName (currentPlayer s) ++ "'s turn")%string
   /\ View.statusAccent s
      = (if xIsNext s then "x"%string else "o"%string)
   /\ View.statusIcon s = Some (currentPlayer s)
   /\ View.scoreActive (currentPlayer s) s = true
   /\ View.scoreActive (opponent (currentPlayer s)) s = false)
  \/ (gameOver s = true
      /\ (forall p, View.scoreActive p s = false)
      /\ ((View.statusText s
           = ("Player " ++ View.playerName (currentPlayer s) ++ " wins!")%string
           /\ View.statusAccent s = "win"%string
           /\ View.statusIcon s = Some (currentPlayer s)
           /\ winner (calculateWinner (board s)) = Some (currentPlayer s))
          \/ (View.statusText s = "It's a draw."%string
              /\ View.statusAccent s = "draw"%string
              /\ View.statusIcon s = None
              /\ isBoardFull (board s) = true))).
Proof.
  intros Hs. destruct (reachable_consistent s Hs) as (_ & Hg & _).
  pose proof (reachable_winner_is_current s Hs) as Hcur.
  unfold View.statusText, View.statusAccent, View.statusIcon,
    View.scoreActive.
  unfold result, boardStatus in *. cbv zeta in *.
  destruct (winner (calculateWinner (board s))) as [w|] eqn:Hw.
  - right. rewrite Hg. specialize (Hcur w eq_refl). subst w.
    split; [reflexivity|]. split; [reflexivity|]. left. auto.
  - destruct (isBoardFull (board s)) eqn:Hf; rewrite Hg.
    + right. split; [reflexivity|]. split; [reflexivity|]. right. auto.
    + left. unfold currentPlayer. destruct (xIsNext s); cbn; auto 10.
Qed.

Lemma status_chip_follows_round_witness :
  let s := run [applyMove 0; applyMove 4; applyMove 1; applyMove 5;
                applyMove 2] initialState in
  reachable s /\ gameOver s = true
  /\ View.statusText s = "Player X wins!"%string
  /\ View.statusIcon s = Some PX.
Proof.
  cbv zeta.
  assert (Hs : reachable (run [applyMove 0; applyMove 4; applyMove 1;
                               applyMove 5; applyMove 2] initialState)).
  { apply reachable_run, reach_init. }
  split; [exact Hs|].
  destruct (status_chip_follows_round _ Hs)
    as [(Hg & _)|(Hg & _ & [(Ht & _ & Hi & _)|(Ht & _)])].
  - vm_compute in Hg. discriminate Hg.
  - split; [exact Hg|]. split; [exact Ht|exact Hi].
  - vm_compute in Ht. discriminate Ht.
Defined.

End ViewFacts.

(** ** Marks, rounds and scores *)





Lemma countMarks_le_length (squares : list Cell) :
  countMarks squares <= length squares.
Proof.
  unfold countMarks. induction squares as [|c rest IH]; cbn; [lia|].
  destruct (negb _); lia.
Qed.

Lemma countMarks_full (squares : list Cell) :
  countMarks squares = length squares -> isBoardFull squares = true.
Proof.
  unfold countMarks, isBoardFull.
  induction squares as [|c rest IH]; cbn; [reflexivity|].
  pose proof (countMarks_le_length rest) as Hle. unfold countMarks in Hle.
  destruct (negb (bool_decide (c = blank))); cbn; [|lia].
  intros H. apply IH. lia.
Qed.

(** X8.  In a reachable state the board has 9 cells and at most 9 marks,
    and with 9 marks the round is over.  A click either leaves the state
    as it is or adds exactly one mark; so a round takes at most 9 accepted
    clicks. *)
Theorem round_ends_within_nine_marks (s : GameState) (index : Z) :
  reachable s ->
  length (board s) = 9
  /\ countMarks (board s) <= 9
  /\ (countMarks (board s) = 9 -> gameOver s = true)
  /\ (handleCellClick index s = s
      \/ countMarks (board (handleCellClick index s))
         = S (countMarks (board s))).
Proof.
  intros Hs. destruct (reachable_consistent s Hs) as (Hlen & Hg & _).
  split; [assumption|].
  split; [rewrite <- Hlen; apply countMarks_le_length|].
  split.
  - intros H9. rewrite <- Hlen in H9. apply countMarks_full in H9.
    rewrite Hg. unfold result, boardStatus. cbv zeta. rewrite H9.
    destruct (winner _); reflexivity.
  - destruct (handleCellClick_dichotomy index s) as [Hr|[Hover Hc]].
    + left. apply handleCellClick_rejected. assumption.
    + right. destruct (readCell_Some _ _ _ Hc) as (_ & _ & Hk).
      rewrite handleCellClick_accepted by assumption. cbv zeta.
      destruct (winner _); [|destruct (isBoardFull _)]; cbn [board];
        apply countMarks_insert_blank; assumption.
Qed.

Lemma round_ends_within_nine_marks_witness :
  let s := run [applyMove 0; applyMove 1; applyMove 2; applyMove 4;
                applyMove 3; applyMove 5; applyMove 7; applyMove 6;
                applyMove 8] initialState in
  reachable s /\ countMarks (board s) = 9 /\ gameOver s = true.
Proof.
  cbv zeta.
  assert (Hs : reachable (run [applyMove 0; applyMove 1; applyMove 2;
                 applyMove 4; applyMove 3; applyMove 5; applyMove 7;
                 applyMove 6; applyMove 8] initialState)).
  { apply reachable_run, reach_init. }
  assert (H9 : countMarks (board (run [applyMove 0; applyMove 1;
                 applyMove 2; applyMove 4; applyMove 3; applyMove 5;
                 applyMove 7; applyMove 6; applyMove 8] initialState)) = 9)
    by reflexivity.
  split; [exact Hs|]. split; [exact H9|].
  exact (proj1 (proj2 (proj2
           (round_ends_within_nine_marks _ 0 Hs))) H9).
Defined.

Lemma exec_score_step c s :
  c <> resetAllCmd ->
  totalScore (scores (exec c s))
  = totalScore (scores s)
    + (if negb (gameOver s) && gameOver (exec c s) then 1 else 0).
Proof.
  intros Hc. destruct c as [index| |]; cbn [exec]; [| |congruence].
  - destruct (handleCellClick_dichotomy index s) as [Hr|[Hg Hcell]].
    + rewrite handleCellClick_rejected by assumption.
      destruct (gameOver s); cbn; lia.
    + rewrite handleCellClick_accepted by assumption. cbv zeta. rewrite Hg.
      destruct (winner _) as [[|]|]; [| |destruct (isBoardFull _)];
        unfold totalScore; cbn; lia.
  - unfold newRound. cbn [scores gameOver]. rewrite andb_false_r. lia.
Qed.

(** X9.  Every finished round is counted once on the scoreboard: along a
    run of moves and new rounds (no reset), from any state, the sum of the
    three counters grows by the number of commands that found the round
    not over and left it over. *)
Theorem scoreboard_counts_finished_rounds (cs : list Command)
  (s : GameState) :
  Forall (fun c => c <> resetAllCmd) cs ->
  totalScore (scores (run cs s))
  = totalScore (scores s) + finishedRounds cs s.
Proof.
  intros Hcs. revert s.
  induction Hcs as [|c rest Hc _ IH]; intros s; cbn [run foldl finishedRounds].
  - lia.
  - fold (run rest (exec c s)). rewrite IH, (exec_score_step c s Hc). lia.
Qed.

Lemma scoreboard_counts_finished_rounds_witness :
  let cs := [applyMove 0; applyMove 4; applyMove 1; applyMove 5;
             applyMove 2; applyMove 3; startNewRound; applyMove 0] in
  Forall (fun c => c <> resetAllCmd) cs
  /\ finishedRounds cs initialState = 1
  /\ totalScore (scores (run cs initialState))
     = totalScore (scores initialState) + finishedRounds cs initialState.
Proof.
  cbv zeta.
  assert (Hcs : Forall (fun c => c <> resetAllCmd)
                  [applyMove 0; applyMove 4; applyMove 1; applyMove 5;
                   applyMove 2; applyMove 3; startNewRound; applyMove 0]).
  { repeat (constructor; [discriminate|]). constructor. }
  split; [exact Hcs|]. split; [reflexivity|].
  exact (scoreboard_counts_finished_rounds _ initialState Hcs).
Defined.

Lemma legalPlay_reachable s : legalPlay s -> reachable s.
Proof.
  induction 1 as [|index s _ IH _ _].
  - apply reach_init.
  - apply (reach_step (applyMove index)). assumption.
Qed.

(** Once a round played from the initial state is over, X has one mark
    more than O when X made the last move, and as many when O did; the
    last mover is still the current player. *)
Lemma legalPlay_last_mover s :
  legalPlay s ->
  gameOver s = true ->
  countOf PX (board s)
  = countOf PO (board s) + (if xIsNext s then 1 else 0).
Proof.
  induction 1 as [|index s Hs IH Hg Hc]; [discriminate|].
  destruct (legalPlay_alternating s Hs) as [Halt _]. specialize (Halt Hg).
  destruct (readCell_Some _ _ _ Hc) as (_ & _ & Hk).
  pose proof (countOf_insert_blank (board s) _ (currentPlayer s) PX Hk) as HX.
  pose proof (countOf_insert_blank (board s) _ (currentPlayer s) PO Hk) as HO.
  rewrite handleCellClick_accepted by assumption. cbv zeta.
  unfold currentPlayer in *.
  destruct (winner _); [|destruct (isBoardFull _)];
    cbn [board gameOver xIsNext]; try discriminate; intros _;
    rewrite HX, HO; clear HX HO;
    destruct (xIsNext s); repeat case_bool_decide; try congruence; lia.
Qed.

Lemma isBoardFull_countMarks (squares : list Cell) :
  isBoardFull squares = true -> countMarks squares = length squares.
Proof.
  unfold isBoardFull, countMarks.
  induction squares as [|c rest IH]; cbn; [reflexivity|].
  destruct (negb (bool_decide (c = blank))); cbn; [|discriminate].
  intros H. rewrite (IH H). reflexivity.
Qed.

(** X10.  A round played from the initial state that ends in a draw ends
    with 5 marks of X and 4 marks of O on the board, and X, who placed
    the last mark, is still the current player. *)
Theorem drawn_round_five_to_four (s : GameState) :
  legalPlay s ->
  result s = draw ->
  countOf PX (board s) = 5 /\ countOf PO (board s) = 4
  /\ currentPlayer s = PX /\ gameOver s = true.
Proof.
  intros Hs Hd.
  destruct (reachable_consistent s (legalPlay_reachable s Hs))
    as (Hlen & Hg & _).
  rewrite Hd in Hg.
  pose proof (legalPlay_last_mover s Hs Hg) as Hlast.
  apply boardStatus_draw in Hd. destruct Hd as [_ Hfull].
  apply isBoardFull_iff, isBoardFull_countMarks in Hfull.
  rewrite countMarks_split, Hlen in Hfull.
  unfold currentPlayer. destruct (xIsNext s).
  - repeat split; try assumption; lia.
  - exfalso. lia.
Qed.

Lemma drawn_round_five_to_four_witness :
  let s := run (map applyMove [0; 1; 2; 4; 3; 5; 7; 6; 8]%Z) initialState in
  legalPlay s /\ result s = draw
  /\ countOf PX (board s) = 5 /\ countOf PO (board s) = 4.
Proof.
  cbv zeta.
  assert (Hs : legalPlay (run (map applyMove [0; 1; 2; 4; 3; 5; 7; 6; 8]%Z)
                              initialState)) by apply legalPlay_clicks.
  assert (Hd : result (run (map applyMove [0; 1; 2; 4; 3; 5; 7; 6; 8]%Z)
                           initialState) = draw) by reflexivity.
  split; [exact Hs|]. split; [exact Hd|].
  pose proof (drawn_round_five_to_four _ Hs Hd) as H.
  split; [exact (proj1 H)|exact (proj1 (proj2 H))].
Defined.

(** X11.  On an array of any length, a winner reported by
    [calculateWinner] comes with a line of three increasing indices that
    lie inside the array, and owns at least 3 cells of it; an array with
    fewer than 3 cells, such as the empty array, has no winner. *)
Theorem winner_line_within_array (squares : list Cell) (p : Player) :
  winner (calculateWinner squares) = Some p ->
  3 <= countOf p squares
  /\ 3 <= length squares
  /\ exists a b c,
       line (calculateWinner squares) = [a; b; c]
       /\ a < b /\ b < c /\ c < length squares.
Proof.
  intros Hw. pose proof (winner_three_marks squares p Hw) as H3.
  destruct (calculateWinner_cases squares)
    as [(a & b & c & q & Hin & (Ha & Hb & Hc) & Hr)|[_ Hr]];
    rewrite Hr in *; cbn [winner line] in *; [|discriminate].
  destruct (lines_increasing a b c Hin) as [Hab Hbc].
  pose proof (lookup_lt_Some _ _ _ Hc) as Hlt.
  split; [assumption|]. split; [lia|].
  exists a, b, c. auto.
Qed.

Lemma winner_line_within_array_witness :
  winner (calculateWinner [blank; mark PO; blank; blank; mark PO; blank;
                           blank; mark PO]) = Some PO
  /\ 3 <= countOf PO [blank; mark PO; blank; blank; mark PO; blank;
                      blank; mark PO].
Proof.
  assert (Hw : winner (calculateWinner [blank; mark PO; blank; blank;
                 mark PO; blank; blank; mark PO]) = Some PO) by reflexivity.
  split; [exact Hw|].
  exact (proj1 (winner_line_within_array _ PO Hw)).
Defined.

Lemma strictEq_swapMarks (u v : JsCell) :
  strictEq (swapMarks <$> u) (swapMarks <$> v) = strictEq u v.
Proof.
  destruct u as [[[|]|]|], v as [[[|]|]|]; reflexivity.
Qed.

Lemma scanLines_swapMarks (squares : list Cell) rest :
  scanLines (swapMarks <$> squares) rest
  = mkResult (opponent <$> winner (scanLines squares rest))
             (line (scanLines squares rest)).
Proof.
  induction rest as [|[[a b] c] rest IH]; [reflexivity|].
  cbn [scanLines]. rewrite !list_lookup_fmap, !strictEq_swapMarks.
  destruct (squares !! a) as [[p|]|]; cbn [fmap option_fmap option_map swapMarks];
    try assumption.
  destruct (strictEq _ _ && strictEq _ _); [reflexivity|assumption].
Qed.

(** X12.  The evaluator treats the two players alike: exchanging the X
    and O marks of a board exchanges the winner and keeps the winning
    line, and does not change whether the board is full. *)
Theorem calculateWinner_player_symmetry (squares : list Cell) :
  calculateWinner (swapMarks <$> squares)
  = mkResult (opponent <$> winner (calculateWinner squares))
             (line (calculateWinner squares))
  /\ isBoardFull (swapMarks <$> squares) = isBoardFull squares.
Proof.
  split; [apply scanLines_swapMarks|].
  unfold isBoardFull. induction squares as [|c rest IH]; [reflexivity|].
  cbn [fmap list_fmap forallb]. fold (swapMarks <$> rest). rewrite IH.
  destruct c as [[|]|]; reflexivity.
Qed.
